(** * typesaurus, [src/batch/index.ts]: the batched-write coordinator

    [batch()] obtains one write batch from the Firestore adaptor and returns
    four closures over it: [set], [update], [clear] and [commit].  Every
    closure is a short straight-line program whose only effects are calls to
    collaborators that live outside the file: the adaptor ([firestore()]),
    the value codec ([unwrapData]) and the write batch itself.

    The embedding keeps that shape.  A closure is a value of [prog]: a finite
    tree of collaborator calls.  [run] gives a program its meaning against an
    arbitrary environment [Env] (what each collaborator answers, whether it
    throws, how the transport state moves) and records the calls it made. *)

From Stdlib Require Import String Ascii List NArith ZArith Bool Lia.
From Stdlib Require Import Permutation.
Import ListNotations.
Local Open Scope string_scope.
Local Open Scope list_scope.

Set Implicit Arguments.
Set Warnings "-register-all".

(** ** Values *)

(** The kinds of command a sentinel value stands for. *)
Inductive ValueKind : Type :=
| KindClear
| KindServerDate
| KindIncrement (by_ : Z).

(** [Collection<Model>]: the object tagged [__type__ = 'collection']. The
    coordinator reads its [path] and nothing else. *)
Record Collection : Type := mkCollection { path : string }.

(** Modelled from the spec: [ref(collection, id)] of [../ref], which is not
    among the sources.  A Reference is the pair of the owning collection and
    the document id (the object tagged [__type__ = 'ref']). *)
Record Ref : Type := ref { ref_collection : Collection; ref_id : string }.

(** Application-level JavaScript values, as far as the coordinator and the
    codec tell them apart.  Numbers are kept to the integers.  [VObj] is a
    plain object: the list of its own properties, each key once, in the
    order JavaScript enumerates them; its prototype is [Object.prototype].
    [VProto proto props] is an object with the same kind of own properties
    whose prototype is [proto] instead: [VNull] or another object.  A
    reference and a sentinel are plain objects too (tagged [__type__]).
    [VUnsupported] stands for a primitive outside the supported domain (a
    symbol). *)
Inductive jsval : Type :=
| VUndefined
| VNull
| VBool (b : bool)
| VNum (n : Z)
| VStr (s : string)
| VArr (items : list jsval)
| VObj (props : list (string * jsval))
| VProto (proto : jsval) (props : list (string * jsval))
| VRef (r : Ref)
| VSentinel (k : ValueKind)
| VUnsupported.

Definition obj : Type := list (string * jsval).

(** [o[k]] for an own property. *)
Fixpoint obj_get (k : string) (o : obj) : option jsval :=
  match o with
  | [] => None
  | (k', v) :: o' => if String.eqb k' k then Some v else obj_get k o'
  end.

Definition has_key (k : string) (o : obj) : bool :=
  existsb (fun kv => String.eqb (fst kv) k) o.

(** The keys JavaScript enumerates first, in numeric order: the array
    indices, that is the decimal numerals without a leading zero of the
    integers below [2^32 - 1]. *)
Definition digit (c : ascii) : option N :=
  let n := N_of_ascii c in
  if ((48 <=? n) && (n <=? 57))%N then Some (n - 48)%N else None.

Fixpoint digits (s : string) (acc : N) : option N :=
  match s with
  | EmptyString => Some acc
  | String c s' =>
      match digit c with
      | Some d => digits s' (10 * acc + d)%N
      | None => None
      end
  end.

Definition array_index (k : string) : option N :=
  match k with
  | EmptyString => None
  | String c rest =>
      if Ascii.eqb c "0" && negb (String.eqb rest "") then None
      else match digits k 0 with
           | Some n => if (n <? 4294967295)%N then Some n else None
           | None => None
           end
  end.

(** Writing an own property that exists: it keeps its place. *)
Fixpoint obj_replace (k : string) (v : jsval) (o : obj) : obj :=
  match o with
  | [] => []
  | (k', v') :: o' =>
      if String.eqb k' k then (k', v) :: o' else (k', v') :: obj_replace k v o'
  end.

(** Creating the own property of array index [n]: it goes after the array
    indices below it. *)
Fixpoint obj_insert_index (n : N) (k : string) (v : jsval) (o : obj) : obj :=
  match o with
  | [] => [(k, v)]
  | (k', v') :: o' =>
      match array_index k' with
      | Some m =>
          if (m <? n)%N then (k', v') :: obj_insert_index n k v o'
          else (k, v) :: o
      | None => (k, v) :: o
      end
  end.

(** Writing the own data property [k] of an object: an existing property
    takes the new value in place; a new one is enumerated among the array
    indices if it is one, and last otherwise. *)
Definition obj_set (k : string) (v : jsval) (o : obj) : obj :=
  if has_key k o then obj_replace k v o
  else match array_index k with
       | Some n => obj_insert_index n k v o
       | None => o ++ [(k, v)]
       end.

Definition obj_keys (o : obj) : list string := map fst o.

(** Modelled from the spec: [doc(ref, data)] of [../doc], which is not among
    the sources.  A Document pairs a reference with data (the object tagged
    [__type__ = 'doc']). *)
Record Doc : Type := doc { doc_ref : Ref; doc_data : jsval }.

(** Modelled from the spec: the entries of [../field], which is not among
    the sources.  A field-path update entry is a pair of a path and a value,
    where the path is a single key or an ordered sequence of keys; [update]
    reads them as the properties [key] and [value] of each entry. *)
Inductive FieldKey : Type :=
| KeyString (k : string)
| KeyArray (ks : list string).

Record Field : Type := field { key : FieldKey; value : jsval }.

(** ** The collaborators *)

(** What [firestore().collection(path).doc(id)] returns. *)
Record DocumentReference : Type :=
  documentReference { dr_path : string; dr_id : string }.

(** The identity of one transport write batch ([firestore().batch()]). *)
Definition WriteBatch : Type := nat.

(** The third, optional argument of the transport's [set]. *)
Record SetOptions : Type := setOptions { merge : bool }.

(** Wire values, the codec's output. *)
Inductive wire : Type :=
| WNull
| WBool (b : bool)
| WNum (n : Z)
| WStr (s : string)
| WArr (items : list wire)
| WMap (fields : list (string * wire))
| WPointer (p : DocumentReference)
| WCommand (k : ValueKind).

(** What a collaborator may throw. *)
Inductive error : Type :=
| ResolutionError (what : string)
| EncodingError
| TransportError (code : string).

Inductive res (A : Type) : Type :=
| Ok (a : A)
| Err (e : error).
Arguments Ok {A} a.
Arguments Err {A} e.

(** The calls the file makes to code outside it. *)
Inductive call : Type :=
| FirestoreBatch
| FirestoreDoc (path_ : string) (id : string)
| UnwrapData (data : jsval)
| BatchSet (b : WriteBatch) (d : DocumentReference) (data : wire)
           (options : option SetOptions)
| BatchUpdate (b : WriteBatch) (d : DocumentReference) (data : wire)
| BatchDelete (b : WriteBatch) (d : DocumentReference)
| BatchCommit (b : WriteBatch).

Definition resp (c : call) : Type :=
  match c with
  | FirestoreBatch => WriteBatch
  | FirestoreDoc _ _ => DocumentReference
  | UnwrapData _ => wire
  | _ => unit
  end.

(** ** Programs *)

Inductive prog (A : Type) : Type :=
| Ret (a : A)
| Vis (c : call) (k : resp c -> prog A).
Arguments Ret {A} a.
Arguments Vis {A} c k.

Fixpoint bind {A B : Type} (p : prog A) (f : A -> prog B) : prog B :=
  match p with
  | Ret a => f a
  | Vis c k => Vis c (fun x => bind (k x) f)
  end.

Definition perform (c : call) : prog (resp c) := Vis c (fun x => Ret x).

Notation "x <- p ;; q" := (bind p (fun x => q))
  (at level 61, p at next level, right associativity).
Notation "p ;; q" := (bind p (fun _ => q))
  (at level 61, right associativity).

(** ** [batch()] and its closures *)

(** The actual arguments of [set], one constructor per overload.  [rest]
    holds whatever a caller passes beyond the declared parameters. *)
Inductive SetArgs : Type :=
| SetRef (r : Ref) (data : jsval) (rest : list jsval)
| SetCollection (c : Collection) (id : string) (data : jsval)
                (rest : list jsval).

(** [Field<Model>[] | ModelUpdate<Model>], told apart by [Array.isArray].
    [TupleList] is the array the doc comment of [update] passes: its
    elements are two-element arrays [[key, value]], not [Field] objects. *)
Inductive UpdateData : Type :=
| FieldList (fields : list Field)
| TupleList (tuples : list (FieldKey * jsval))
| ModelUpdate (m : jsval).

Inductive UpdateArgs : Type :=
| UpdateRef (r : Ref) (data : UpdateData)
| UpdateCollection (c : Collection) (id : string) (data : UpdateData).

Inductive ClearArgs : Type :=
| ClearRef (r : Ref)
| ClearCollection (c : Collection) (id : string).

(** The [if (collectionOrRef.__type__ === 'collection') ... else ...] that
    opens each operation. *)
Definition set_target (a : SetArgs) : Collection * string :=
  match a with
  | SetCollection c id _ _ => (c, id)
  | SetRef r _ _ => (ref_collection r, ref_id r)
  end.

Definition set_data (a : SetArgs) : jsval :=
  match a with
  | SetCollection _ _ data _ => data
  | SetRef _ data _ => data
  end.

Definition update_target (a : UpdateArgs) : Collection * string :=
  match a with
  | UpdateCollection c id _ => (c, id)
  | UpdateRef r _ => (ref_collection r, ref_id r)
  end.

Definition update_data (a : UpdateArgs) : UpdateData :=
  match a with
  | UpdateCollection _ _ data => data
  | UpdateRef _ data => data
  end.

Definition clear_target (a : ClearArgs) : Collection * string :=
  match a with
  | ClearCollection c id => (c, id)
  | ClearRef r => (ref_collection r, ref_id r)
  end.

(** [Array.isArray(key) ? key.join('.') : key] *)
Definition field_path (k : FieldKey) : string :=
  match k with
  | KeyArray ks => String.concat "." ks
  | KeyString s => s
  end.

(** The accumulator of the reduce.  It starts as [{}]: no own property,
    prototype [Object.prototype] ([acc_proto = None]).  The assignments of
    the reduce can give it own properties and, through [__proto__], another
    prototype. *)
Record Acc : Type := mkAcc { acc_proto : option jsval; acc_props : obj }.

Definition empty_acc : Acc := mkAcc None [].

(** The property name [Object.prototype] answers with an accessor. *)
Definition proto_key : string := "__proto__".

Definition is_object (v : jsval) : bool :=
  match v with
  | VArr _ | VObj _ | VProto _ _ | VRef _ | VSentinel _ => true
  | _ => false
  end.

Definition is_null (v : jsval) : bool :=
  match v with VNull => true | _ => false end.

(** Looking [__proto__] up from the object [v] along its prototype chain
    ends at the accessor of [Object.prototype], and not before at an own
    data property of that name or at the end of a chain without
    [Object.prototype]. *)
Fixpoint inherits_proto_setter (v : jsval) : bool :=
  match v with
  | VObj props => negb (has_key proto_key props)
  | VProto p props =>
      if has_key proto_key props then false else inherits_proto_setter p
  | VArr _ | VRef _ | VSentinel _ => true
  | _ => false
  end.

Definition reaches_proto_setter (a : Acc) : bool :=
  match acc_proto a with
  | None => true
  | Some p => inherits_proto_setter p
  end.

(** [acc[k] = v].  An own property [k] takes the value.  Otherwise, for
    [k = "__proto__"] with the accessor of [Object.prototype] on the chain,
    the setter runs: an object or [null] becomes the prototype of [acc], any
    other value is dropped, and no own property is created.  In every other
    case the chain holds at most a writable data property of that name, and
    [k] becomes an own property. *)
Definition acc_set (k : string) (v : jsval) (a : Acc) : Acc :=
  if String.eqb k proto_key && negb (has_key k (acc_props a))
     && reaches_proto_setter a
  then if is_object v || is_null v then mkAcc (Some v) (acc_props a) else a
  else mkAcc (acc_proto a) (obj_set k v (acc_props a)).

Definition acc_value (a : Acc) : jsval :=
  match acc_proto a with
  | None => VObj (acc_props a)
  | Some p => VProto p (acc_props a)
  end.

(** [data.reduce((acc, { key, value }) => { acc[...] = value; return acc }, {})]
    over [Field] objects. *)
Definition reduce_acc (fields : list Field) : Acc :=
  fold_left (fun acc f => acc_set (field_path (key f)) (value f) acc)
            fields empty_acc.

(** The own properties of the reduced object. *)
Definition reduce_fields (fields : list Field) : obj :=
  acc_props (reduce_acc fields).

(** The same reduce over two-element arrays.  An array has no property
    [key] or [value], so the destructuring binds both to [undefined];
    [Array.isArray(undefined)] is false and [acc[undefined] = undefined]
    writes the property named ["undefined"]. *)
Definition reduce_tuples (tuples : list (FieldKey * jsval)) : Acc :=
  fold_left (fun acc _ => acc_set "undefined" VUndefined acc)
            tuples empty_acc.

(** [Array.isArray(data) ? data.reduce(...) : data] *)
Definition updateData (data : UpdateData) : jsval :=
  match data with
  | FieldList fields => acc_value (reduce_acc fields)
  | TupleList tuples => acc_value (reduce_tuples tuples)
  | ModelUpdate m => m
  end.

Section Closures.
(** [const firestoreBatch = firestore().batch()] *)
Variable firestoreBatch : WriteBatch.

Definition set (args : SetArgs) : prog Doc :=
  let '(collection, id) := set_target args in
  let data := set_data args in
  firestoreDoc <- perform (FirestoreDoc (path collection) id) ;;
  unwrapped <- perform (UnwrapData data) ;;
  perform (BatchSet firestoreBatch firestoreDoc unwrapped None) ;;
  Ret (doc (ref collection id) data).

Definition update (args : UpdateArgs) : prog unit :=
  let '(collection, id) := update_target args in
  let data := update_data args in
  firebaseDoc <- perform (FirestoreDoc (path collection) id) ;;
  unwrapped <- perform (UnwrapData (updateData data)) ;;
  perform (BatchUpdate firestoreBatch firebaseDoc unwrapped).

Definition clear (args : ClearArgs) : prog unit :=
  let '(collection, id) := clear_target args in
  firebaseDoc <- perform (FirestoreDoc (path collection) id) ;;
  perform (BatchDelete firestoreBatch firebaseDoc).

(** [async function commit() { await firestoreBatch.commit() }]: the
    outcome of the program is the settlement of the returned promise. *)
Definition commit : prog unit :=
  perform (BatchCommit firestoreBatch) ;; Ret tt.
End Closures.

Record Batch : Type := mkBatch {
  batch_set : SetArgs -> prog Doc;
  batch_update : UpdateArgs -> prog unit;
  batch_clear : ClearArgs -> prog unit;
  batch_commit : prog unit
}.

Definition batch : prog Batch :=
  firestoreBatch <- perform FirestoreBatch ;;
  Ret (mkBatch (set firestoreBatch) (update firestoreBatch)
               (clear firestoreBatch) (commit firestoreBatch)).

(** ** Running a program against its collaborators *)

(** An environment fixes what every collaborator does, over a transport
    state [S].  Building a document pointer and converting a value touch no
    write batch: they only answer or throw. *)
Record Env (S : Type) : Type := mkEnv {
  env_batch : S -> res WriteBatch * S;
  env_doc : string -> string -> res DocumentReference;
  env_codec : jsval -> res wire;
  env_set : WriteBatch -> DocumentReference -> wire -> option SetOptions ->
            S -> res unit * S;
  env_update : WriteBatch -> DocumentReference -> wire -> S -> res unit * S;
  env_delete : WriteBatch -> DocumentReference -> S -> res unit * S;
  env_commit : WriteBatch -> S -> res unit * S
}.

Definition handle {S : Type} (env : Env S) (c : call) :
  S -> res (resp c) * S :=
  match c return S -> res (resp c) * S with
  | FirestoreBatch => env_batch env
  | FirestoreDoc p i => fun s => (env_doc env p i, s)
  | UnwrapData v => fun s => (env_codec env v, s)
  | BatchSet b d w o => env_set env b d w o
  | BatchUpdate b d w => env_update env b d w
  | BatchDelete b d => env_delete env b d
  | BatchCommit b => env_commit env b
  end.

(** The result of a run: what the program returned or which error escaped
    it, the transport state it left, and the calls it made, in order.  No
    closure catches anything, so the first throwing call ends the run. *)
Record Outcome (S A : Type) : Type := mkOutcome {
  result : res A;
  final : S;
  calls : list call
}.

Fixpoint run {S A : Type} (env : Env S) (p : prog A) (s : S) : Outcome S A :=
  match p with
  | Ret a => mkOutcome (Ok a) s []
  | Vis c k =>
      match handle env c s with
      | (Ok x, s') =>
          let o := run env (k x) s' in
          mkOutcome (result o) (final o) (c :: calls o)
      | (Err e, s') => mkOutcome (Err e) s' [c]
      end
  end.

Definition is_staging (c : call) : bool :=
  match c with
  | BatchSet _ _ _ _ | BatchUpdate _ _ _ | BatchDelete _ _ => true
  | _ => false
  end.

Definition is_commit (c : call) : bool :=
  match c with BatchCommit _ => true | _ => false end.

Definition is_codec (c : call) : bool :=
  match c with UnwrapData _ => true | _ => false end.

(** ** A concrete environment *)

(** Modelled from the spec: [unwrapData] of [../data], which is not among
    the sources.  Scalars pass through, arrays are mapped element-wise and
    objects key-wise, a sentinel becomes the transport's command, a reference
    becomes a document pointer; a value outside the supported domain is an
    encoding error. *)
Fixpoint unwrapData (v : jsval) : res wire :=
  match v with
  | VUndefined => Err EncodingError
  | VNull => Ok WNull
  | VBool b => Ok (WBool b)
  | VNum n => Ok (WNum n)
  | VStr s => Ok (WStr s)
  | VArr items =>
      match
        (fix each (l : list jsval) : res (list wire) :=
           match l with
           | [] => Ok []
           | x :: l' =>
               match unwrapData x, each l' with
               | Ok w, Ok ws => Ok (w :: ws)
               | Err e, _ => Err e
               | _, Err e => Err e
               end
           end) items
      with
      | Ok ws => Ok (WArr ws)
      | Err e => Err e
      end
  | VObj props =>
      match
        (fix each (l : list (string * jsval)) : res (list (string * wire)) :=
           match l with
           | [] => Ok []
           | (k, x) :: l' =>
               match unwrapData x, each l' with
               | Ok w, Ok ws => Ok ((k, w) :: ws)
               | Err e, _ => Err e
               | _, Err e => Err e
               end
           end) props
      with
      | Ok fs => Ok (WMap fs)
      | Err e => Err e
      end
  | VProto _ props =>
      match
        (fix each (l : list (string * jsval)) : res (list (string * wire)) :=
           match l with
           | [] => Ok []
           | (k, x) :: l' =>
               match unwrapData x, each l' with
               | Ok w, Ok ws => Ok ((k, w) :: ws)
               | Err e, _ => Err e
               | _, Err e => Err e
               end
           end) props
      with
      | Ok fs => Ok (WMap fs)
      | Err e => Err e
      end
  | VRef r =>
      Ok (WPointer (documentReference (path (ref_collection r)) (ref_id r)))
  | VSentinel k => Ok (WCommand k)
  | VUnsupported => Err EncodingError
  end.

(** An in-memory transport: it hands out batch numbers, logs what was staged
    on which batch, and remembers which batches were committed.  With
    [strict] it refuses, like Firestore, to touch a committed batch; without
    it, it accepts every call. *)
Record Memory : Type := mkMemory {
  next_batch : nat;
  staged : list call;
  committed : list WriteBatch
}.

Definition empty_memory : Memory := mkMemory 0 [] [].

Definition is_committed (b : WriteBatch) (m : Memory) : bool :=
  existsb (Nat.eqb b) (committed m).

Definition mem_stage (strict : bool) (b : WriteBatch) (c : call)
  (m : Memory) : res unit * Memory :=
  if strict && is_committed b m
  then (Err (TransportError "batch already committed"), m)
  else (Ok tt, mkMemory (next_batch m) (staged m ++ [c]) (committed m)).

Definition mem_commit (strict : bool) (b : WriteBatch)
  (m : Memory) : res unit * Memory :=
  if strict && is_committed b m
  then (Err (TransportError "batch already committed"), m)
  else (Ok tt, mkMemory (next_batch m) (staged m) (b :: committed m)).

(** The adaptor refuses an empty collection path or document id. *)
Definition mem_doc (p i : string) : res DocumentReference :=
  if String.eqb p "" then Err (ResolutionError "path")
  else if String.eqb i "" then Err (ResolutionError "id")
  else Ok (documentReference p i).

Definition memory_env (strict : bool) : Env Memory :=
  mkEnv
    (fun m => (Ok (next_batch m),
               mkMemory (S (next_batch m)) (staged m) (committed m)))
    mem_doc
    unwrapData
    (fun b d w o => mem_stage strict b (BatchSet b d w o))
    (fun b d w => mem_stage strict b (BatchUpdate b d w))
    (fun b d => mem_stage strict b (BatchDelete b d))
    (mem_commit strict).

Definition with_codec {S : Type} (env : Env S) (codec : jsval -> res wire) :
  Env S :=
  mkEnv (env_batch env) (env_doc env) codec (env_set env) (env_update env)
        (env_delete env) (env_commit env).

(** Modelled from the spec: what the transport leaves in a document once a
    staged [set] is committed.  With [merge: true] the fields of the existing
    document that the new data does not mention survive; otherwise the new
    data replaces the document. *)
Fixpoint wire_set (k : string) (w : wire) (fs : list (string * wire)) :
  list (string * wire) :=
  match fs with
  | [] => [(k, w)]
  | (k', w') :: fs' =>
      if String.eqb k' k then (k', w) :: fs' else (k', w') :: wire_set k w fs'
  end.

Definition stored_after_set (existing data : list (string * wire))
  (options : option SetOptions) : list (string * wire) :=
  match options with
  | Some (setOptions true) =>
      fold_left (fun acc kw => wire_set (fst kw) (snd kw) acc) data existing
  | _ => data
  end.

(** The data of the test suite. *)
Definition users : Collection := mkCollection "users".
Definition sashaRef : Ref := ref users "sasha".
Definition mergeTrue : jsval := VObj [("merge", VBool true)].

Definition sashaKoss : jsval := VObj [("name", VStr "Sasha Koss")].
Definition sashaDoc : DocumentReference := documentReference "users" "sasha".

(** ** Notions the statements use *)

(** The value the last entry of [fields] with dotted path [k] carries. *)
Fixpoint last_entry (k : string) (fields : list Field) : option jsval :=
  match fields with
  | [] => None
  | f :: rest =>
      match last_entry k rest with
      | Some v => Some v
      | None => if String.eqb (field_path (key f)) k then Some (value f)
                else None
      end
  end.

(** A call fails before it reaches the write batch: building the document
    pointer throws [e], or the pointer is built and the codec throws [e]. *)
Definition throws_before_staging {S : Type} (env : Env S)
  (target : Collection * string) (data : jsval) (e : error) : Prop :=
  env_doc env (path (fst target)) (snd target) = Err e \/
  (exists p, env_doc env (path (fst target)) (snd target) = Ok p /\
             env_codec env data = Err e).

(** The outcome of a call that threw [e] and left the batch alone. *)
Definition aborted {S A : Type} (o : Outcome S A) (s : S) (e : error) : Prop :=
  result o = Err e /\ final o = s /\ filter is_staging (calls o) = [].


(** What the accumulator holds for [__proto__]: its prototype and its own
    property of that name. *)
Definition proto_state (a : Acc) : option jsval * option jsval :=
  (acc_proto a, obj_get proto_key (acc_props a)).

(** The effect of [acc["__proto__"] = x] on that. *)
Definition proto_step (s : option jsval * option jsval) (x : jsval) :
  option jsval * option jsval :=
  match snd s with
  | Some _ => (fst s, Some x)
  | None =>
      if match fst s with
         | None => true
         | Some q => inherits_proto_setter q
         end
      then if is_object x || is_null x then (Some x, None) else s
      else (fst s, Some x)
  end.

(** No entry of [fields] has the path [__proto__]. *)
Definition no_proto_path (fields : list Field) : Prop :=
  Forall (fun f => field_path (key f) <> proto_key) fields.

(** A staged [set] that asks the transport to merge. *)
Definition stages_merge (c : call) : bool :=
  match c with
  | BatchSet _ _ _ (Some (setOptions true)) => true
  | _ => false
  end.

(** ** Notions for the further properties *)

(** The closures [batch()] returns for the write batch [fb]. *)
Definition closures (fb : WriteBatch) : Batch :=
  mkBatch (set fb) (update fb) (clear fb) (commit fb).

(** The write batch a call is made on, if it is made on one. *)
Definition batch_of (c : call) : option WriteBatch :=
  match c with
  | BatchSet b _ _ _ | BatchUpdate b _ _ | BatchDelete b _
  | BatchCommit b => Some b
  | _ => None
  end.

(** [c] is not a call on a write batch other than [fb]. *)
Definition on_batch (fb : WriteBatch) (c : call) : Prop :=
  batch_of c = None \/ batch_of c = Some fb.

(** One staging call of a caller: [set(...)], [update(...)] or
    [clear(...)], the Document of [set] dropped as the tests and the
    examples of the file do. *)
Inductive Op : Type :=
| OpSet (a : SetArgs)
| OpUpdate (a : UpdateArgs)
| OpClear (a : ClearArgs).

Definition call_op (b : Batch) (o : Op) : prog unit :=
  match o with
  | OpSet a => batch_set b a ;; Ret tt
  | OpUpdate a => batch_update b a
  | OpClear a => batch_clear b a
  end.

(** A caller's straight line of staging calls on one batch. *)
Fixpoint script (b : Batch) (ops : list Op) : prog unit :=
  match ops with
  | [] => Ret tt
  | o :: rest => call_op b o ;; script b rest
  end.

(** The property an entry writes: its path with its value. *)
Definition entry (f : Field) : string * jsval :=
  (field_path (key f), value f).

(** An adaptor that cannot be reached: every call throws. *)
Definition offline : error := TransportError "unavailable".

Definition offline_env : Env unit :=
  mkEnv (fun u => (Err offline, u))
        (fun _ _ => Err offline)
        (fun _ => Err offline)
        (fun _ _ _ _ u => (Err offline, u))
        (fun _ _ _ u => (Err offline, u))
        (fun _ _ u => (Err offline, u))
        (fun _ u => (Err offline, u)).

(** ** How each closure runs *)

Definition lift_unit {A : Type} (a : A) (r : res unit) : res A :=
  match r with
  | Ok _ => Ok a
  | Err e => Err e
  end.

Lemma run_set {S : Type} (env : Env S) (s : S) (fb : WriteBatch)
  (args : SetArgs) :
  run env (set fb args) s =
  let (c, i) := set_target args in
  let q := FirestoreDoc (path c) i in
  match env_doc env (path c) i with
  | Err e => mkOutcome (Err e) s [q]
  | Ok p =>
      let u := UnwrapData (set_data args) in
      match env_codec env (set_data args) with
      | Err e => mkOutcome (Err e) s [q; u]
      | Ok w =>
          let t := env_set env fb p w None s in
          mkOutcome (lift_unit (doc (ref c i) (set_data args)) (fst t))
                    (snd t) [q; u; BatchSet fb p w None]
      end
  end.
Proof.
  unfold set. destruct (set_target args) as [c i]. cbn.
  destruct (env_doc env (path c) i) as [p|e]; cbn; [|reflexivity].
  destruct (env_codec env (set_data args)) as [w|e]; cbn; [|reflexivity].
  destruct (env_set env fb p w None s) as [[[]|e] s']; reflexivity.
Qed.

Lemma run_update {S : Type} (env : Env S) (s : S) (fb : WriteBatch)
  (args : UpdateArgs) :
  run env (update fb args) s =
  let (c, i) := update_target args in
  let q := FirestoreDoc (path c) i in
  match env_doc env (path c) i with
  | Err e => mkOutcome (Err e) s [q]
  | Ok p =>
      let u := UnwrapData (updateData (update_data args)) in
      match env_codec env (updateData (update_data args)) with
      | Err e => mkOutcome (Err e) s [q; u]
      | Ok w =>
          let t := env_update env fb p w s in
          mkOutcome (fst t) (snd t) [q; u; BatchUpdate fb p w]
      end
  end.
Proof.
  unfold update. destruct (update_target args) as [c i]. cbn.
  destruct (env_doc env (path c) i) as [p|e]; cbn; [|reflexivity].
  destruct (env_codec env (updateData (update_data args))) as [w|e]; cbn;
    [|reflexivity].
  destruct (env_update env fb p w s) as [[[]|e] s']; reflexivity.
Qed.

Lemma run_clear {S : Type} (env : Env S) (s : S) (fb : WriteBatch)
  (args : ClearArgs) :
  run env (clear fb args) s =
  let (c, i) := clear_target args in
  let q := FirestoreDoc (path c) i in
  match env_doc env (path c) i with
  | Err e => mkOutcome (Err e) s [q]
  | Ok p =>
      let t := env_delete env fb p s in
      mkOutcome (fst t) (snd t) [q; BatchDelete fb p]
  end.
Proof.
  unfold clear. destruct (clear_target args) as [c i]. cbn.
  destruct (env_doc env (path c) i) as [p|e]; cbn; [|reflexivity].
  destruct (env_delete env fb p s) as [[[]|e] s']; reflexivity.
Qed.

Lemma run_commit {S : Type} (env : Env S) (s : S) (fb : WriteBatch) :
  run env (commit fb) s =
  mkOutcome (fst (env_commit env fb s)) (snd (env_commit env fb s))
            [BatchCommit fb].
Proof.
  unfold commit. cbn.
  destruct (env_commit env fb s) as [[[]|e] s']; reflexivity.
Qed.

Lemma run_bind {S A B : Type} (env : Env S) (p : prog A) (f : A -> prog B)
  (s : S) :
  run env (bind p f) s =
  match result (run env p s) with
  | Ok a =>
      let o := run env (f a) (final (run env p s)) in
      mkOutcome (result o) (final o) (calls (run env p s) ++ calls o)
  | Err e => mkOutcome (Err e) (final (run env p s)) (calls (run env p s))
  end.
Proof.
  revert s. induction p as [a|c k IH]; intros s; cbn.
  - destruct (run env (f a) s); reflexivity.
  - destruct (handle env c s) as [[x|e] s']; cbn; [|reflexivity].
    rewrite IH. destruct (result (run env (k x) s')); reflexivity.
Qed.

(** ** Objects as ordered maps *)

Lemma has_key_get (k : string) (o : obj) :
  has_key k o = false <-> obj_get k o = None.
Proof.
  unfold has_key. induction o as [|[k1 v1] o IH]; cbn; [tauto|].
  destruct (String.eqb k1 k); cbn; [|exact IH].
  split; discriminate.
Qed.

Lemma has_key_in (k : string) (o : obj) :
  has_key k o = true <-> In k (obj_keys o).
Proof.
  unfold has_key. induction o as [|[k1 v1] o IH]; cbn.
  - split; [discriminate|intros []].
  - destruct (String.eqb_spec k1 k) as [->|Hk]; cbn.
    + split; auto.
    + rewrite IH. split; [auto|]. intros [E|H]; [contradiction|exact H].
Qed.

Lemma obj_get_replace (k k' : string) (v : jsval) (o : obj) :
  has_key k o = true ->
  obj_get k' (obj_replace k v o) =
  if String.eqb k k' then Some v else obj_get k' o.
Proof.
  unfold has_key. induction o as [|[k1 v1] o IH]; cbn; [discriminate|].
  destruct (String.eqb_spec k1 k) as [->|Hk]; cbn.
  - intros _. destruct (String.eqb k k'); reflexivity.
  - intros H. rewrite (IH H).
    destruct (String.eqb_spec k1 k') as [->|Hk']; [|reflexivity].
    destruct (String.eqb_spec k k') as [->|_]; [contradiction|reflexivity].
Qed.

Lemma obj_get_insert (n : N) (k k' : string) (v : jsval) (o : obj) :
  has_key k o = false ->
  obj_get k' (obj_insert_index n k v o) =
  if String.eqb k k' then Some v else obj_get k' o.
Proof.
  unfold has_key. induction o as [|[k1 v1] o IH]; cbn.
  - intros _. destruct (String.eqb k k'); reflexivity.
  - destruct (String.eqb_spec k1 k) as [->|Hk]; cbn; [discriminate|].
    intros H.
    destruct (array_index k1) as [m|]; [destruct (m <? n)%N|]; cbn;
      try reflexivity.
    rewrite (IH H).
    destruct (String.eqb_spec k1 k') as [->|Hk']; [|reflexivity].
    destruct (String.eqb_spec k k') as [->|_]; [contradiction|reflexivity].
Qed.

Lemma obj_get_append (k k' : string) (v : jsval) (o : obj) :
  has_key k o = false ->
  obj_get k' (o ++ [(k, v)]) =
  if String.eqb k k' then Some v else obj_get k' o.
Proof.
  unfold has_key. induction o as [|[k1 v1] o IH]; cbn.
  - intros _. destruct (String.eqb k k'); reflexivity.
  - destruct (String.eqb_spec k1 k) as [->|Hk]; cbn; [discriminate|].
    intros H. rewrite (IH H).
    destruct (String.eqb_spec k1 k') as [->|Hk']; [|reflexivity].
    destruct (String.eqb_spec k k') as [->|_]; [contradiction|reflexivity].
Qed.

Lemma obj_get_set (k k' : string) (v : jsval) (o : obj) :
  obj_get k' (obj_set k v o) =
  if String.eqb k k' then Some v else obj_get k' o.
Proof.
  unfold obj_set. destruct (has_key k o) eqn:H.
  - now apply obj_get_replace.
  - destruct (array_index k).
    + now apply obj_get_insert.
    + now apply obj_get_append.
Qed.

Lemma obj_replace_keys (k : string) (v : jsval) (o : obj) :
  obj_keys (obj_replace k v o) = obj_keys o.
Proof.
  unfold obj_keys. induction o as [|[k1 v1] o IH]; cbn; [reflexivity|].
  destruct (String.eqb k1 k); cbn; [reflexivity|]. now rewrite IH.
Qed.

Lemma obj_insert_perm (n : N) (k : string) (v : jsval) (o : obj) :
  Permutation (obj_insert_index n k v o) ((k, v) :: o).
Proof.
  induction o as [|[k1 v1] o IH]; cbn; [reflexivity|].
  destruct (array_index k1) as [m|]; [destruct (m <? n)%N|];
    try reflexivity.
  rewrite IH. apply perm_swap.
Qed.

Lemma obj_set_new_perm (k : string) (v : jsval) (o : obj) :
  has_key k o = false -> Permutation (obj_set k v o) ((k, v) :: o).
Proof.
  intros H. unfold obj_set. rewrite H. destruct (array_index k).
  - apply obj_insert_perm.
  - symmetry. apply Permutation_cons_append.
Qed.

Lemma obj_set_NoDup (k : string) (v : jsval) (o : obj) :
  NoDup (obj_keys o) -> NoDup (obj_keys (obj_set k v o)).
Proof.
  intros H. destruct (has_key k o) eqn:E.
  - unfold obj_set. rewrite E, obj_replace_keys. exact H.
  - eapply Permutation_NoDup.
    + symmetry. apply Permutation_map, obj_set_new_perm, E.
    + cbn. constructor; [|exact H].
      rewrite <- has_key_in, E. discriminate.
Qed.

Lemma obj_replace_length (k : string) (v : jsval) (o : obj) :
  length (obj_replace k v o) = length o.
Proof.
  induction o as [|[k1 v1] o IH]; cbn; [reflexivity|].
  destruct (String.eqb k1 k); cbn; [reflexivity|]. now rewrite IH.
Qed.

Lemma obj_set_length (k : string) (v : jsval) (o : obj) :
  length (obj_set k v o) <= S (length o).
Proof.
  destruct (has_key k o) eqn:E.
  - unfold obj_set. rewrite E, obj_replace_length. lia.
  - rewrite (Permutation_length (obj_set_new_perm k v o E)). cbn. lia.
Qed.

Lemma obj_set_fresh (k : string) (v : jsval) (o : obj) :
  has_key k o = false -> array_index k = None ->
  obj_set k v o = o ++ [(k, v)].
Proof.
  intros H I. unfold obj_set. now rewrite H, I.
Qed.

Lemma obj_set_empty (k : string) (v : jsval) : obj_set k v [] = [(k, v)].
Proof.
  unfold obj_set. cbn. now destruct (array_index k).
Qed.

Lemma obj_get_some_in (k : string) (v : jsval) (o : obj) :
  obj_get k o = Some v -> In k (obj_keys o).
Proof.
  intros H. apply has_key_in. destruct (has_key k o) eqn:E; [reflexivity|].
  apply has_key_get in E. congruence.
Qed.

Lemma obj_get_in (k : string) (o : obj) :
  In k (obj_keys o) -> exists v, obj_get k o = Some v.
Proof.
  intros H. apply has_key_in in H.
  destruct (obj_get k o) as [v|] eqn:E; [now exists v|].
  apply has_key_get in E. congruence.
Qed.

(** ** The accumulator of the reduce *)

Lemma acc_set_other (k : string) (v : jsval) (a : Acc) :
  k <> proto_key ->
  acc_set k v a = mkAcc (acc_proto a) (obj_set k v (acc_props a)).
Proof.
  intros H. unfold acc_set.
  destruct (String.eqb_spec k proto_key) as [E|_]; [contradiction|].
  reflexivity.
Qed.

Lemma acc_set_get (k k' : string) (v : jsval) (a : Acc) :
  k' <> proto_key ->
  obj_get k' (acc_props (acc_set k v a)) =
  if String.eqb k k' then Some v else obj_get k' (acc_props a).
Proof.
  intros H. unfold acc_set.
  destruct (String.eqb_spec k proto_key) as [E|_]; cbn.
  - subst k.
    destruct (String.eqb_spec proto_key k') as [E'|_]; [congruence|].
    destruct (negb (has_key proto_key (acc_props a)) && reaches_proto_setter a).
    + now destruct (is_object v || is_null v).
    + cbn. rewrite obj_get_set.
      destruct (String.eqb_spec proto_key k'); [congruence|reflexivity].
  - apply obj_get_set.
Qed.

Lemma acc_set_origin (k k' : string) (v v' : jsval) (a : Acc) :
  obj_get k' (acc_props (acc_set k v a)) = Some v' ->
  (k = k' /\ v = v') \/ obj_get k' (acc_props a) = Some v'.
Proof.
  unfold acc_set.
  destruct (String.eqb k proto_key && negb (has_key k (acc_props a))
            && reaches_proto_setter a).
  - destruct (is_object v || is_null v); cbn; auto.
  - cbn. rewrite obj_get_set.
    destruct (String.eqb_spec k k') as [->|_]; [|auto].
    intros H. injection H as ->. auto.
Qed.

Lemma acc_set_NoDup (k : string) (v : jsval) (a : Acc) :
  NoDup (obj_keys (acc_props a)) ->
  NoDup (obj_keys (acc_props (acc_set k v a))).
Proof.
  intros H. unfold acc_set.
  destruct (String.eqb k proto_key && negb (has_key k (acc_props a))
            && reaches_proto_setter a).
  - now destruct (is_object v || is_null v).
  - cbn. now apply obj_set_NoDup.
Qed.

Lemma acc_set_length (k : string) (v : jsval) (a : Acc) :
  length (acc_props (acc_set k v a)) <= S (length (acc_props a)).
Proof.
  unfold acc_set.
  destruct (String.eqb k proto_key && negb (has_key k (acc_props a))
            && reaches_proto_setter a).
  - destruct (is_object v || is_null v); cbn; lia.
  - cbn. apply obj_set_length.
Qed.

Lemma fold_fields_get (k : string) (fields : list Field) (a : Acc) :
  k <> proto_key ->
  obj_get k
    (acc_props
       (fold_left (fun acc f => acc_set (field_path (key f)) (value f) acc)
                  fields a)) =
  match last_entry k fields with
  | Some v => Some v
  | None => obj_get k (acc_props a)
  end.
Proof.
  intros Hk. revert a. induction fields as [|f rest IH]; intros a; cbn.
  - reflexivity.
  - rewrite IH. destruct (last_entry k rest); [reflexivity|].
    rewrite acc_set_get by assumption.
    destruct (String.eqb _ k); reflexivity.
Qed.

Lemma fold_fields_origin (k : string) (v : jsval) (fields : list Field)
  (a : Acc) :
  obj_get k
    (acc_props
       (fold_left (fun acc f => acc_set (field_path (key f)) (value f) acc)
                  fields a)) = Some v ->
  (exists f, In f fields /\ field_path (key f) = k /\ value f = v) \/
  obj_get k (acc_props a) = Some v.
Proof.
  revert a. induction fields as [|f rest IH]; intros a; cbn; [auto|].
  intros H. destruct (IH _ H) as [[g [Hg Hkv]]|H'].
  - left. exists g. auto.
  - destruct (acc_set_origin _ _ _ _ H') as [[E1 E2]|H'']; [|auto].
    left. exists f. auto.
Qed.

Lemma fold_fields_NoDup (fields : list Field) (a : Acc) :
  NoDup (obj_keys (acc_props a)) ->
  NoDup (obj_keys
    (acc_props
       (fold_left (fun acc f => acc_set (field_path (key f)) (value f) acc)
                  fields a))).
Proof.
  revert a. induction fields as [|f rest IH]; intros a H; cbn.
  - assumption.
  - apply IH, acc_set_NoDup, H.
Qed.

Lemma fold_fields_plain (fields : list Field) (a : Acc) :
  no_proto_path fields ->
  fold_left (fun acc f => acc_set (field_path (key f)) (value f) acc)
            fields a =
  mkAcc (acc_proto a)
        (fold_left (fun o f => obj_set (field_path (key f)) (value f) o)
                   fields (acc_props a)).
Proof.
  intros H. revert a. induction H as [|f rest Hf _ IH]; intros a; cbn.
  - now destruct a.
  - rewrite IH, acc_set_other by assumption. reflexivity.
Qed.

Lemma last_entry_no_proto (fields : list Field) :
  no_proto_path fields -> last_entry proto_key fields = None.
Proof.
  induction 1 as [|f rest Hf _ IH]; cbn; [reflexivity|].
  rewrite IH. destruct (String.eqb_spec (field_path (key f)) proto_key);
    [contradiction|reflexivity].
Qed.

Lemma reduce_fields_no_proto (fields : list Field) :
  no_proto_path fields ->
  acc_proto (reduce_acc fields) = None /\
  obj_get proto_key (reduce_fields fields) = None.
Proof.
  intros H. unfold reduce_fields, reduce_acc.
  split.
  - now rewrite fold_fields_plain.
  - destruct (obj_get proto_key _) as [v|] eqn:E; [|reflexivity].
    apply fold_fields_origin in E. destruct E as [[f [Hf [Hk _]]]|E].
    + unfold no_proto_path in H. rewrite Forall_forall in H.
      now apply H in Hf.
    + discriminate E.
Qed.

Lemma reduce_fields_get (k : string) (fields : list Field) :
  k <> proto_key ->
  obj_get k (reduce_fields fields) = last_entry k fields.
Proof.
  intros H. unfold reduce_fields, reduce_acc.
  rewrite fold_fields_get by assumption.
  now destruct (last_entry k fields).
Qed.

(** ** The claims *)

(** C1 (defect in the code).  [set] has no options parameter: what a caller
    passes after the data is never read, and the transport's [set] is called
    with two arguments.  So no run of [set] stages a merge, whatever the
    arguments; on the call of the test suite, [set(sashaRef, { name: 'Sasha
    Koss' }, { merge: true })], the batch holds a plain [set], which once
    committed over [{ name: 'Sasha', foo: true }] leaves [{ name: 'Sasha
    Koss' }], where a merge would have kept [foo]. *)
Theorem set_never_stages_merge :
  (forall (S : Type) (env : Env S) (s : S) (fb : WriteBatch) (args : SetArgs),
      existsb stages_merge (calls (run env (set fb args) s)) = false) /\
  staged (final (run (memory_env true)
                   (b <- batch ;;
                    batch_set b (SetRef sashaRef sashaKoss [mergeTrue]))
                   empty_memory)) =
    [BatchSet 0 sashaDoc (WMap [("name", WStr "Sasha Koss")]) None] /\
  stored_after_set [("name", WStr "Sasha"); ("foo", WBool true)]
                   [("name", WStr "Sasha Koss")] None =
    [("name", WStr "Sasha Koss")] /\
  stored_after_set [("name", WStr "Sasha"); ("foo", WBool true)]
                   [("name", WStr "Sasha Koss")] (Some (setOptions true)) =
    [("name", WStr "Sasha Koss"); ("foo", WBool true)].
Proof.
  split; [|repeat split].
  intros S env s fb args. rewrite run_set.
  destruct (set_target args) as [c i]; cbn.
  destruct (env_doc env (path c) i); cbn; [|reflexivity].
  destruct (env_codec env (set_data args)); reflexivity.
Qed.





(** C3.  The Reference form and the (Collection, id) form of [set], [update]
    and [clear] resolve to the same collection and id and are the same
    program: they make the same calls with the same arguments against every
    environment, and [set] returns the same Document. *)
Theorem ref_and_collection_forms_agree (fb : WriteBatch) (c : Collection)
  (s : string) :
  (forall d rest rest',
      set_target (SetRef (ref c s) d rest) = (c, s) /\
      set_target (SetCollection c s d rest') = (c, s) /\
      set fb (SetRef (ref c s) d rest) = set fb (SetCollection c s d rest')) /\
  (forall d,
      update_target (UpdateRef (ref c s) d) = (c, s) /\
      update_target (UpdateCollection c s d) = (c, s) /\
      update fb (UpdateRef (ref c s) d) = update fb (UpdateCollection c s d)) /\
  (clear_target (ClearRef (ref c s)) = (c, s) /\
   clear_target (ClearCollection c s) = (c, s) /\
   clear fb (ClearRef (ref c s)) = clear fb (ClearCollection c s)) /\
  (forall (S : Type) (env : Env S) (st : S) d rest rest',
      run env (set fb (SetRef (ref c s) d rest)) st =
      run env (set fb (SetCollection c s d rest')) st).
Proof.
  repeat split.
Qed.

(** C4 (defect in the code).  The reduce writes each entry with
    [acc[path] = value] into an object created as [{}].  For every path but
    one that is the claim: entries are taken in order, a sequence is joined
    with ['.'] and a single key used as it is, a later entry overwrites an
    earlier one of the same path, and the object holds every such path once
    with the value of its last entry.  For the path [__proto__] the
    assignment runs the setter of [Object.prototype] instead: the entry
    [("__proto__", 5)] leaves the object without any property, so its last
    entry does not win. *)
Theorem proto_entry_is_lost :
  updateData (FieldList [field (KeyString "__proto__") (VNum 5)]) = VObj [] /\
  last_entry "__proto__" [field (KeyString "__proto__") (VNum 5)]
    = Some (VNum 5) /\
  obj_get "__proto__"
    (reduce_fields [field (KeyString "__proto__") (VNum 5)]) = None /\
  (forall fields : list Field,
      NoDup (obj_keys (reduce_fields fields)) /\
      (forall k, k <> "__proto__" ->
                 obj_get k (reduce_fields fields) = last_entry k fields) /\
      (forall f, field_path (key f) <> "__proto__" ->
                 reduce_fields (fields ++ [f]) =
                 obj_set (field_path (key f)) (value f)
                         (reduce_fields fields)) /\
      (no_proto_path fields ->
       updateData (FieldList fields) = VObj (reduce_fields fields) /\
       forall k, obj_get k (reduce_fields fields) = last_entry k fields)) /\
  (forall ks, field_path (KeyArray ks) = String.concat "." ks) /\
  (forall k, field_path (KeyString k) = k) /\
  field_path (KeyString "meta.updatedAt") =
  field_path (KeyArray ["meta"; "updatedAt"]).
Proof.
  split; [reflexivity|]. split; [reflexivity|]. split; [reflexivity|].
  split; [|repeat split].
  intros fields. split; [|split; [|split]].
  - apply fold_fields_NoDup. constructor.
  - intros k Hk. now apply reduce_fields_get.
  - intros f Hf. unfold reduce_fields, reduce_acc.
    rewrite fold_left_app. cbn. now rewrite acc_set_other.
  - intros H. destruct (reduce_fields_no_proto H) as [Hp Hg]. split.
    + cbn. unfold acc_value, reduce_fields. now rewrite Hp.
    + intros k. destruct (String.eqb_spec k proto_key) as [->|Hk].
      * now rewrite Hg, last_entry_no_proto.
      * now apply reduce_fields_get.
Qed.

(** C5 (defect in the code).  The doc comment of [update] and the claim
    write the list form as two-element arrays, [[["count", 5]]].  The reduce
    reads [key] and [value] off each element, which an array does not have:
    whatever the tuples say, a non-empty list of them reduces to
    [{ undefined: undefined }], which is what goes to the codec and the
    write batch, not [{ count: 5 }].  Written with [Field] objects, the list
    form with one entry [(k, v)] is the same program as the object form
    [{ k: v }] for every key but [__proto__], where the list form stages an
    object without properties. *)
Theorem tuple_list_stages_undefined (fb : WriteBatch) (r : Ref) :
  (forall k v rest,
      updateData (TupleList ((k, v) :: rest)) =
      VObj [("undefined", VUndefined)]) /\
  updateData (TupleList [(KeyString "count", VNum 5)]) <>
  updateData (ModelUpdate (VObj [("count", VNum 5)])) /\
  update fb (UpdateRef r (TupleList [(KeyString "count", VNum 5)])) =
  update fb (UpdateRef r (ModelUpdate (VObj [("undefined", VUndefined)]))) /\
  (forall k v, k <> "__proto__" ->
      update fb (UpdateRef r (FieldList [field (KeyString k) v])) =
      update fb (UpdateRef r (ModelUpdate (VObj [(k, v)])))) /\
  updateData (FieldList [field (KeyString "__proto__") (VNum 5)]) <>
  updateData (ModelUpdate (VObj [("__proto__", VNum 5)])).
Proof.
  split; [|split; [discriminate|split; [reflexivity|split; [|discriminate]]]].
  - intros k v rest. cbn [updateData]. unfold reduce_tuples. cbn [fold_left].
    assert (H : forall l : list (FieldKey * jsval),
               fold_left (fun acc _ => acc_set "undefined" VUndefined acc) l
                 (mkAcc None [("undefined", VUndefined)]) =
               mkAcc None [("undefined", VUndefined)]).
    { induction l as [|t l IH]; [reflexivity|]. cbn [fold_left].
      exact IH. }
    exact (f_equal acc_value (H rest)).
  - intros k v Hk. unfold update. cbn [update_target update_data updateData].
    unfold reduce_acc. cbn [fold_left key value field_path].
    rewrite acc_set_other by exact Hk. cbn [acc_props acc_proto empty_acc].
    rewrite obj_set_empty. reflexivity.
Qed.

(** C6.  An empty update, as an empty list of entries or as an empty object,
    is not skipped: when the pointer is built and the codec turns the empty
    object into [w], the write batch's [update] is called with [w], and the
    outcome of the call is the outcome of [update]. *)
Theorem empty_update_is_staged {S : Type} (env : Env S) (s : S)
  (fb : WriteBatch) (args : UpdateArgs) (p : DocumentReference) (w : wire) :
  update_data args = FieldList [] \/ update_data args = ModelUpdate (VObj []) ->
  env_doc env (path (fst (update_target args))) (snd (update_target args))
    = Ok p ->
  env_codec env (VObj []) = Ok w ->
  run env (update fb args) s =
  mkOutcome (fst (env_update env fb p w s)) (snd (env_update env fb p w s))
    [FirestoreDoc (path (fst (update_target args))) (snd (update_target args));
     UnwrapData (VObj []); BatchUpdate fb p w].
Proof.
  intros Hd Hp Hw. rewrite run_update.
  destruct (update_target args) as [c i]; cbn in *. rewrite Hp.
  destruct Hd as [-> | ->]; cbn; now rewrite Hw.
Qed.

Lemma empty_update_is_staged_witness :
  (update_data (UpdateRef sashaRef (FieldList [])) = FieldList [] \/
   update_data (UpdateRef sashaRef (FieldList [])) = ModelUpdate (VObj [])) /\
  mem_doc "users" "sasha" = Ok sashaDoc /\
  unwrapData (VObj []) = Ok (WMap []) /\
  run (memory_env true) (update 0 (UpdateRef sashaRef (FieldList [])))
      (mkMemory 1 [] []) =
  mkOutcome (Ok tt) (mkMemory 1 [BatchUpdate 0 sashaDoc (WMap [])] [])
    [FirestoreDoc "users" "sasha"; UnwrapData (VObj []);
     BatchUpdate 0 sashaDoc (WMap [])].
Proof.
  split; [left; reflexivity|]. split; [reflexivity|]. split; [reflexivity|].
  exact (empty_update_is_staged (memory_env true) (mkMemory 1 [] []) 0
           (UpdateRef sashaRef (FieldList [])) (or_introl eq_refl)
           eq_refl eq_refl).
Defined.

(** C7.  Whenever [set] returns, the Document it returns has the resolved
    reference as its [ref] (the reference passed, or the one of the
    collection and id passed) and the very data passed as its [data]: the
    value that went through the codec is not what comes back.  And [set]
    returns unless building the pointer, the codec or the write batch's [set]
    threw. *)
Theorem set_returns_input_document {S : Type} (env : Env S) (s : S)
  (fb : WriteBatch) :
  (forall (r : Ref) (d : jsval) (rest : list jsval),
      match result (run env (set fb (SetRef r d rest)) s) with
      | Ok document => doc_ref document = r /\ doc_data document = d
      | Err e =>
          env_doc env (path (ref_collection r)) (ref_id r) = Err e \/
          env_codec env d = Err e \/
          exists p w, fst (env_set env fb p w None s) = Err e
      end) /\
  (forall (c : Collection) (i : string) (d : jsval) (rest : list jsval),
      match result (run env (set fb (SetCollection c i d rest)) s) with
      | Ok document => doc_ref document = ref c i /\ doc_data document = d
      | Err e =>
          env_doc env (path c) i = Err e \/
          env_codec env d = Err e \/
          exists p w, fst (env_set env fb p w None s) = Err e
      end).
Proof.
  split.
  - intros [c i] d rest. rewrite run_set. cbn.
    destruct (env_doc env (path c) i) as [p|e]; cbn; [|now left].
    destruct (env_codec env d) as [w|e]; cbn; [|now right; left].
    destruct (env_set env fb p w None s) as [[[]|e] s'] eqn:E; cbn.
    + now split.
    + right; right. exists p, w. now rewrite E.
  - intros c i d rest. rewrite run_set. cbn.
    destruct (env_doc env (path c) i) as [p|e]; cbn; [|now left].
    destruct (env_codec env d) as [w|e]; cbn; [|now right; left].
    destruct (env_set env fb p w None s) as [[[]|e] s'] eqn:E; cbn.
    + now split.
    + right; right. exists p, w. now rewrite E.
Qed.

(** C8.  When building the pointer throws, or the codec throws on the data,
    [set] and [update] throw that error, leave the transport state as it was
    and make no call to the write batch. *)
Theorem early_throw_stages_nothing {S : Type} (env : Env S) (s : S)
  (fb : WriteBatch) (e : error) :
  (forall args,
      throws_before_staging env (set_target args) (set_data args) e ->
      aborted (run env (set fb args) s) s e) /\
  (forall args,
      throws_before_staging env (update_target args)
                            (updateData (update_data args)) e ->
      aborted (run env (update fb args) s) s e).
Proof.
  split; intros args H; unfold throws_before_staging, aborted in *.
  - rewrite run_set. destruct (set_target args) as [c i]; cbn in *.
    destruct H as [H | [p [Hp Hw]]].
    + rewrite H. now repeat split.
    + rewrite Hp, Hw. now repeat split.
  - rewrite run_update. destruct (update_target args) as [c i]; cbn in *.
    destruct H as [H | [p [Hp Hw]]].
    + rewrite H. now repeat split.
    + rewrite Hp, Hw. now repeat split.
Qed.

Lemma early_throw_stages_nothing_witness :
  throws_before_staging (memory_env true)
    (set_target (SetRef sashaRef VUnsupported [])) VUnsupported
    EncodingError /\
  aborted (run (memory_env true) (set 0 (SetRef sashaRef VUnsupported []))
               (mkMemory 1 [] []))
          (mkMemory 1 [] []) EncodingError /\
  throws_before_staging (memory_env true)
    (update_target (UpdateCollection users "" (ModelUpdate sashaKoss)))
    (updateData (ModelUpdate sashaKoss)) (ResolutionError "id") /\
  aborted (run (memory_env true)
               (update 0 (UpdateCollection users "" (ModelUpdate sashaKoss)))
               (mkMemory 1 [] []))
          (mkMemory 1 [] []) (ResolutionError "id").
Proof.
  assert (H1 : throws_before_staging (memory_env true)
                 (set_target (SetRef sashaRef VUnsupported [])) VUnsupported
                 EncodingError)
    by (right; exists sashaDoc; split; reflexivity).
  assert (H2 : throws_before_staging (memory_env true)
                 (update_target
                    (UpdateCollection users "" (ModelUpdate sashaKoss)))
                 (updateData (ModelUpdate sashaKoss)) (ResolutionError "id"))
    by (left; reflexivity).
  split; [exact H1|]. split.
  { exact (proj1 (early_throw_stages_nothing (memory_env true)
                    (mkMemory 1 [] []) 0 EncodingError) _ H1). }
  split; [exact H2|].
  exact (proj2 (early_throw_stages_nothing (memory_env true)
                  (mkMemory 1 [] []) 0 (ResolutionError "id")) _ H2).
Defined.

(** C9.  [batch()] asks the adaptor for one write batch, and [commit] is
    one call to the [commit] of that write batch, from whatever state the
    staged operations left: the outcome of the call settles the promise, a
    rejection with the transport's own error, and nothing is called after
    it. *)
Theorem commit_is_one_transport_commit {S : Type} (env : Env S) (s0 s1 : S)
  (fb : WriteBatch) :
  env_batch env s0 = (Ok fb, s1) ->
  (exists b, run env batch s0 = mkOutcome (Ok b) s1 [FirestoreBatch] /\
             batch_commit b = commit fb /\ batch_set b = set fb /\
             batch_update b = update fb /\ batch_clear b = clear fb) /\
  (forall s, run env (commit fb) s =
             mkOutcome (fst (env_commit env fb s)) (snd (env_commit env fb s))
                       [BatchCommit fb]) /\
  (forall s e, fst (env_commit env fb s) = Err e ->
               result (run env (commit fb) s) = Err e /\
               length (filter is_commit (calls (run env (commit fb) s))) = 1).
Proof.
  intros Hb. split; [|split].
  - eexists. cbn. rewrite Hb. cbn. repeat split.
  - intros s. apply run_commit.
  - intros s e He. rewrite run_commit. cbn. now split.
Qed.

Lemma commit_is_one_transport_commit_witness :
  env_batch (memory_env true) empty_memory = (Ok 0, mkMemory 1 [] []) /\
  fst (env_commit (memory_env true) 0 (mkMemory 1 [] [0])) =
    Err (TransportError "batch already committed") /\
  result (run (memory_env true) (commit 0) (mkMemory 1 [] [0])) =
    Err (TransportError "batch already committed") /\
  length (filter is_commit
            (calls (run (memory_env true) (commit 0) (mkMemory 1 [] [0]))))
    = 1.
Proof.
  split; [reflexivity|]. split; [reflexivity|].
  exact (proj2 (proj2 (@commit_is_one_transport_commit
                         Memory (memory_env true) empty_memory
                         (mkMemory 1 [] []) 0 eq_refl))
               (mkMemory 1 [] [0]) _ eq_refl).
Defined.

(** C10.  [clear] makes no call to the codec.  It builds the pointer and, if
    that did not throw, calls the write batch's [delete]; replacing the codec
    by any other changes nothing in its run, and an error it throws is one
    that building the pointer or the transport threw. *)
Theorem clear_never_calls_codec {S : Type} (env : Env S) (s : S)
  (fb : WriteBatch) (args : ClearArgs) :
  existsb is_codec (calls (run env (clear fb args) s)) = false /\
  (forall codec,
      run (with_codec env codec) (clear fb args) s =
      run env (clear fb args) s) /\
  match result (run env (clear fb args) s) with
  | Ok _ => True
  | Err e =>
      env_doc env (path (fst (clear_target args))) (snd (clear_target args))
        = Err e \/
      exists p, fst (env_delete env fb p s) = Err e
  end.
Proof.
  split; [|split].
  - rewrite run_clear. destruct (clear_target args) as [c i]; cbn.
    now destruct (env_doc env (path c) i).
  - intros codec. now rewrite !run_clear.
  - rewrite run_clear. destruct (clear_target args) as [c i]; cbn.
    destruct (env_doc env (path c) i) as [p|e]; cbn; [|now left].
    destruct (env_delete env fb p s) as [[[]|e] s'] eqn:E; cbn; [exact I|].
    right. exists p. now rewrite E.
Qed.

(** ** Further properties of the field-path reduction *)

Lemma last_entry_some (k : string) (v : jsval) (fields : list Field) :
  last_entry k fields = Some v ->
  exists f, In f fields /\ field_path (key f) = k /\ value f = v.
Proof.
  induction fields as [|f rest IH]; cbn; [discriminate|].
  destruct (last_entry k rest) as [v'|].
  - intros H. destruct (IH H) as [g [Hg Hkv]]. exists g. split; auto.
  - destruct (String.eqb_spec (field_path (key f)) k) as [E|E];
      [|discriminate].
    intros H. injection H as <-. exists f. auto.
Qed.

Lemma last_entry_in (k : string) (f : Field) (fields : list Field) :
  In f fields -> field_path (key f) = k ->
  exists v, last_entry k fields = Some v.
Proof.
  induction fields as [|g rest IH]; cbn; [intros []|].
  intros [->|H] E.
  - destruct (last_entry k rest) as [v|]; [now exists v|].
    rewrite E, String.eqb_refl. now exists (value f).
  - destruct (IH H E) as [v ->]. now exists v.
Qed.

Lemma fold_fields_length (fields : list Field) (a : Acc) :
  length (acc_props
            (fold_left
               (fun acc f => acc_set (field_path (key f)) (value f) acc)
               fields a))
  <= length (acc_props a) + length fields.
Proof.
  revert a. induction fields as [|f rest IH]; intros a; cbn; [lia|].
  specialize (IH (acc_set (field_path (key f)) (value f) a)).
  pose proof (acc_set_length (field_path (key f)) (value f) a). lia.
Qed.

Lemma fold_plain_distinct (fields : list Field) (o : obj) :
  NoDup (obj_keys o ++ map (fun f => field_path (key f)) fields) ->
  Forall (fun f => array_index (field_path (key f)) = None) fields ->
  fold_left (fun a f => obj_set (field_path (key f)) (value f) a) fields o =
  o ++ map entry fields.
Proof.
  intros H I. revert o H. induction I as [|f rest If _ IH]; intros o H; cbn.
  - now rewrite app_nil_r.
  - cbn in H. rewrite obj_set_fresh; [| |exact If].
    + rewrite IH.
      * now rewrite <- app_assoc.
      * unfold obj_keys in *. rewrite map_app, <- app_assoc. exact H.
    + apply NoDup_remove_2 in H.
      destruct (has_key (field_path (key f)) o) eqn:E; [|reflexivity].
      exfalso. apply H, in_or_app. left. now apply has_key_in.
Qed.

Lemma last_entry_perm (k : string) (fields fields' : list Field) :
  Permutation fields fields' ->
  NoDup (map (fun f => field_path (key f)) fields) ->
  last_entry k fields = last_entry k fields'.
Proof.
  induction 1 as [|x l l' HP IH|x y l|l l' l'' HP1 IH1 HP2 IH2]; intros Hnd.
  - reflexivity.
  - cbn. inversion Hnd; subst. now rewrite IH.
  - cbn. destruct (last_entry k l); [reflexivity|].
    destruct (String.eqb_spec (field_path (key x)) k) as [Ex|Ex];
      destruct (String.eqb_spec (field_path (key y)) k) as [Ey|Ey];
      try reflexivity.
    exfalso. cbn in Hnd. inversion Hnd as [|? ? Hn _]; subst.
    apply Hn. left. congruence.
  - rewrite IH1 by assumption. apply IH2.
    eapply Permutation_NoDup; [|exact Hnd].
    now apply Permutation_map.
Qed.

Lemma string_append_assoc (a b c : string) :
  ((a ++ b) ++ c = a ++ (b ++ c))%string.
Proof.
  induction a as [|ch a IH]; cbn; [reflexivity|]. now rewrite IH.
Qed.

Lemma concat_app (sep : string) (ks1 ks2 : list string) :
  ks1 <> [] -> ks2 <> [] ->
  String.concat sep (ks1 ++ ks2) =
  (String.concat sep ks1 ++ sep ++ String.concat sep ks2)%string.
Proof.
  intros H1 H2. induction ks1 as [|k ks1 IH]; [contradiction|].
  destruct ks1 as [|k' ks1].
  - cbn. destruct ks2; [contradiction|reflexivity].
  - change (String.concat sep ((k :: k' :: ks1) ++ ks2))
      with (k ++ sep ++ String.concat sep ((k' :: ks1) ++ ks2))%string.
    rewrite IH by discriminate.
    change (String.concat sep (k :: k' :: ks1))
      with (k ++ sep ++ String.concat sep (k' :: ks1))%string.
    now rewrite !string_append_assoc.
Qed.

Lemma last_entry_app (k : string) (a b : list Field) :
  last_entry k (a ++ b) =
  match last_entry k b with
  | Some v => Some v
  | None => last_entry k a
  end.
Proof.
  induction a as [|f a IH]; cbn.
  - now destruct (last_entry k b).
  - rewrite IH. now destruct (last_entry k b).
Qed.

Lemma acc_set_proto_state_other (k : string) (v : jsval) (a : Acc) :
  k <> proto_key -> proto_state (acc_set k v a) = proto_state a.
Proof.
  intros H. rewrite acc_set_other by assumption. unfold proto_state. cbn.
  rewrite obj_get_set.
  destruct (String.eqb_spec k proto_key); [contradiction|reflexivity].
Qed.

Lemma acc_set_proto_state (v : jsval) (a : Acc) :
  proto_state (acc_set proto_key v a) = proto_step (proto_state a) v.
Proof.
  unfold acc_set, proto_step, proto_state, reaches_proto_setter.
  rewrite String.eqb_refl. cbn [fst snd andb].
  destruct (has_key proto_key (acc_props a)) eqn:E; cbn [negb andb].
  - cbn. rewrite obj_get_set, String.eqb_refl.
    destruct (obj_get proto_key (acc_props a)) eqn:G; [reflexivity|].
    apply has_key_get in G. congruence.
  - apply has_key_get in E. rewrite E.
    destruct (match acc_proto a with
              | Some p => inherits_proto_setter p
              | None => true
              end).
    + destruct (is_object v || is_null v); cbn; now rewrite ?E.
    + cbn. now rewrite obj_get_set, String.eqb_refl.
Qed.

Lemma fold_proto_state (fields : list Field) (a : Acc) :
  proto_state
    (fold_left (fun acc f => acc_set (field_path (key f)) (value f) acc)
               fields a) =
  fold_left (fun s f => if String.eqb (field_path (key f)) proto_key
                        then proto_step s (value f) else s)
            fields (proto_state a).
Proof.
  revert a. induction fields as [|f rest IH]; intros a; cbn; [reflexivity|].
  rewrite IH. destruct (String.eqb_spec (field_path (key f)) proto_key)
    as [E|E].
  - now rewrite E, acc_set_proto_state.
  - now rewrite acc_set_proto_state_other.
Qed.

Lemma proto_fold_distinct (fields : list Field)
  (s : option jsval * option jsval) :
  snd s = None ->
  fst s = None \/ no_proto_path fields ->
  NoDup (map (fun f => field_path (key f)) fields) ->
  snd (fold_left (fun s f => if String.eqb (field_path (key f)) proto_key
                             then proto_step s (value f) else s)
                 fields s) = None.
Proof.
  revert s. induction fields as [|f rest IH]; intros s Hs Hd Hn; cbn;
    [exact Hs|].
  inversion Hn as [|? ? Hnot Hrest]; subst.
  destruct (String.eqb_spec (field_path (key f)) proto_key) as [E|E].
  - assert (Hr : no_proto_path rest).
    { apply Forall_forall. intros g Hg Eg. apply Hnot.
      rewrite E, <- Eg.
      exact (in_map (fun h => field_path (key h)) rest g Hg). }
    destruct Hd as [Hd|Hd]; [|inversion Hd; contradiction].
    apply IH; [|now right|assumption].
    unfold proto_step. rewrite Hs, Hd.
    now destruct (is_object (value f) || is_null (value f)).
  - apply IH; [assumption| |assumption].
    destruct Hd as [Hd|Hd]; [now left|right; now inversion Hd].
Qed.

Lemma reduce_fields_distinct_proto (fields : list Field) :
  NoDup (map (fun f => field_path (key f)) fields) ->
  obj_get proto_key (reduce_fields fields) = None.
Proof.
  intros H. unfold reduce_fields, reduce_acc.
  change (snd (proto_state
                 (fold_left
                    (fun acc f => acc_set (field_path (key f)) (value f) acc)
                    fields empty_acc)) = None).
  rewrite fold_proto_state. apply proto_fold_distinct; auto.
Qed.

(** ** Further properties of the closures *)

Lemma op_calls {S : Type} (env : Env S) (s : S) (fb : WriteBatch) (o : Op) :
  let r := run env (call_op (closures fb) o) s in
  Forall (on_batch fb) (calls r) /\
  filter is_commit (calls r) = [] /\
  length (filter is_staging (calls r)) <= 1 /\
  (forall u, result r = Ok u -> length (filter is_staging (calls r)) = 1).
Proof.
  assert (Hn : forall c, batch_of c = None -> on_batch fb c) by (now left).
  assert (Hs : forall c, batch_of c = Some fb -> on_batch fb c) by (now right).
  destruct o as [a|a|a]; cbn [call_op closures batch_set batch_update
                               batch_clear].
  - rewrite run_bind, run_set. destruct (set_target a) as [c i]; cbn.
    destruct (env_doc env (path c) i) as [p|e]; cbn;
      [|repeat split; auto; discriminate].
    destruct (env_codec env (set_data a)) as [w|e]; cbn;
      [|repeat split; auto; discriminate].
    destruct (env_set env fb p w None s) as [[[]|e] s']; cbn;
      repeat split; auto; discriminate.
  - rewrite run_update. destruct (update_target a) as [c i]; cbn.
    destruct (env_doc env (path c) i) as [p|e]; cbn;
      [|repeat split; auto; discriminate].
    destruct (env_codec env (updateData (update_data a))) as [w|e]; cbn;
      [|repeat split; auto; discriminate].
    repeat split; auto.
  - rewrite run_clear. destruct (clear_target a) as [c i]; cbn.
    destruct (env_doc env (path c) i) as [p|e]; cbn;
      [|repeat split; auto; discriminate].
    repeat split; auto.
Qed.

Lemma script_calls {S : Type} (env : Env S) (fb : WriteBatch)
  (ops : list Op) (s : S) :
  let r := run env (script (closures fb) ops) s in
  Forall (on_batch fb) (calls r) /\
  filter is_commit (calls r) = [] /\
  length (filter is_staging (calls r)) <= length ops /\
  (forall u, result r = Ok u ->
             length (filter is_staging (calls r)) = length ops).
Proof.
  revert s. induction ops as [|o ops IH]; intros s.
  - cbn. repeat split; auto.
  - cbn [script]. rewrite run_bind.
    destruct (op_calls env s fb o) as (F1 & C1 & L1 & E1).
    destruct (result (run env (call_op (closures fb) o) s)) as [u|e] eqn:R.
    + destruct (IH (final (run env (call_op (closures fb) o) s)))
        as (F2 & C2 & L2 & E2).
      cbn. rewrite !filter_app, length_app, C1, C2.
      specialize (E1 u eq_refl).
      repeat split.
      * apply Forall_app; split; assumption.
      * lia.
      * intros u' Hu. rewrite (E2 u' Hu). lia.
    + cbn. repeat split; auto; [lia|discriminate].
Qed.

Lemma run_batch_bind {S A : Type} (env : Env S) (s0 s1 : S) (fb : WriteBatch)
  (k : Batch -> prog A) :
  env_batch env s0 = (Ok fb, s1) ->
  run env (bind batch k) s0 =
  mkOutcome (result (run env (k (closures fb)) s1))
            (final (run env (k (closures fb)) s1))
            (FirestoreBatch :: calls (run env (k (closures fb)) s1)).
Proof.
  intros H. unfold batch. cbn. rewrite H. reflexivity.
Qed.

(** ** Further properties *)

(** X1.  Whatever the collaborators answer, a [set], [update] or [clear] of
    a batch calls no write batch but its own, makes at most one staging call
    and never calls [commit]. *)
Theorem staging_calls_stay_on_batch {S : Type} (env : Env S) (s : S)
  (fb : WriteBatch) :
  (forall args,
      Forall (on_batch fb) (calls (run env (set fb args) s)) /\
      filter is_commit (calls (run env (set fb args) s)) = [] /\
      length (filter is_staging (calls (run env (set fb args) s))) <= 1) /\
  (forall args,
      Forall (on_batch fb) (calls (run env (update fb args) s)) /\
      filter is_commit (calls (run env (update fb args) s)) = [] /\
      length (filter is_staging (calls (run env (update fb args) s))) <= 1) /\
  (forall args,
      Forall (on_batch fb) (calls (run env (clear fb args) s)) /\
      filter is_commit (calls (run env (clear fb args) s)) = [] /\
      length (filter is_staging (calls (run env (clear fb args) s))) <= 1).
Proof.
  assert (Hn : forall c, batch_of c = None -> on_batch fb c) by (now left).
  assert (Hs : forall c, batch_of c = Some fb -> on_batch fb c) by (now right).
  split; [|split]; intros args.
  - rewrite run_set. destruct (set_target args) as [c i]; cbn.
    destruct (env_doc env (path c) i) as [p|e]; cbn; [|repeat split; auto].
    destruct (env_codec env (set_data args)) as [w|e]; cbn;
      repeat split; auto.
  - rewrite run_update. destruct (update_target args) as [c i]; cbn.
    destruct (env_doc env (path c) i) as [p|e]; cbn; [|repeat split; auto].
    destruct (env_codec env (updateData (update_data args))) as [w|e]; cbn;
      repeat split; auto.
  - rewrite run_clear. destruct (clear_target args) as [c i]; cbn.
    destruct (env_doc env (path c) i) as [p|e]; cbn; repeat split; auto.
Qed.

(** X2.  A caller that takes a batch, makes any sequence of [set], [update]
    and [clear] calls on it and then calls [commit]: every write-batch call
    is on the one batch [batch()] obtained and there are at most as many
    staging calls as operations.  If an operation throws, that error ends
    the run and [commit] is never called; if none throws, each operation
    made its one staging call and the run ends with the single [commit],
    whose outcome is the outcome of the run. *)
Theorem batch_session_commits_once {S : Type} (env : Env S) (s0 s1 : S)
  (fb : WriteBatch) (ops : list Op) :
  env_batch env s0 = (Ok fb, s1) ->
  let body := run env (script (closures fb) ops) s1 in
  let o := run env (b <- batch ;; script b ops ;; batch_commit b) s0 in
  Forall (on_batch fb) (calls o) /\
  length (filter is_staging (calls o)) <= length ops /\
  (forall e, result body = Err e ->
             result o = Err e /\ final o = final body /\
             filter is_commit (calls o) = []) /\
  (forall u, result body = Ok u ->
             length (filter is_staging (calls o)) = length ops /\
             filter is_commit (calls o) = [BatchCommit fb] /\
             calls o = FirestoreBatch :: calls body ++ [BatchCommit fb] /\
             result o = fst (env_commit env fb (final body)) /\
             final o = snd (env_commit env fb (final body))).
Proof.
  intros Hb body o.
  assert (Ho : o = run env (bind batch (fun b => script b ops ;; batch_commit b))
                       s0) by reflexivity.
  rewrite (@run_batch_bind _ _ env s0 s1 fb _ Hb) in Ho.
  cbn [batch_commit closures] in Ho. rewrite run_bind in Ho.
  destruct (script_calls env fb ops s1) as (F & C & L & E).
  fold body in Ho, F, C, L, E. clearbody o body.
  assert (Hn : on_batch fb FirestoreBatch) by (now left).
  assert (Hc : on_batch fb (BatchCommit fb)) by (now right).
  destruct (result body) as [u|e] eqn:R.
  - rewrite run_commit in Ho. cbn in Ho. subst o. cbn.
    rewrite !filter_app, C, length_app. cbn. specialize (E u eq_refl).
    split; [|split; [lia|split; [discriminate|]]].
    + constructor; [assumption|]. apply Forall_app. split; [assumption|].
      constructor; [assumption|constructor].
    + intros _ _. repeat split. lia.
  - subst o. cbn. rewrite C.
    split; [|split; [assumption|split; [|discriminate]]].
    + constructor; assumption.
    + intros e' He. injection He as <-. repeat split.
Qed.

Lemma batch_session_commits_once_witness :
  env_batch (memory_env true) empty_memory = (Ok 0, mkMemory 1 [] []) /\
  result (run (memory_env true)
            (script (closures 0)
               [OpSet (SetRef sashaRef sashaKoss []);
                OpUpdate (UpdateRef sashaRef (FieldList []));
                OpClear (ClearCollection users "tati")])
            (mkMemory 1 [] [])) = Ok tt /\
  filter is_commit
    (calls (run (memory_env true)
              (b <- batch ;;
               script b [OpSet (SetRef sashaRef sashaKoss []);
                         OpUpdate (UpdateRef sashaRef (FieldList []));
                         OpClear (ClearCollection users "tati")] ;;
               batch_commit b)
              empty_memory)) = [BatchCommit 0].
Proof.
  split; [reflexivity|]. split; [reflexivity|].
  exact (proj1 (proj2 (proj2 (proj2 (proj2
           (@batch_session_commits_once Memory (memory_env true) empty_memory
              (mkMemory 1 [] []) 0
              [OpSet (SetRef sashaRef sashaKoss []);
               OpUpdate (UpdateRef sashaRef (FieldList []));
               OpClear (ClearCollection users "tati")] eq_refl))) tt eq_refl))).
Defined.

(** X3.  If the adaptor throws when [batch()] asks it for a write batch,
    [batch()] throws that error: nothing that would have used the batch
    runs, and no other call is made. *)
Theorem batch_failure_runs_nothing {S A : Type} (env : Env S) (s0 s' : S)
  (e : error) (k : Batch -> prog A) :
  env_batch env s0 = (Err e, s') ->
  run env (b <- batch ;; k b) s0 = mkOutcome (Err e) s' [FirestoreBatch].
Proof.
  intros H. unfold batch. cbn. now rewrite H.
Qed.

Lemma batch_failure_runs_nothing_witness :
  env_batch offline_env tt = (Err offline, tt) /\
  run offline_env
      (b <- batch ;; batch_set b (SetRef sashaRef sashaKoss []))
      tt =
  mkOutcome (Err offline) tt [FirestoreBatch].
Proof.
  split; [reflexivity|].
  exact (@batch_failure_runs_nothing unit Doc offline_env tt tt offline
           (fun b => batch_set b (SetRef sashaRef sashaKoss [])) eq_refl).
Defined.

(** X4.  When building the document pointer throws, [set], [update] and
    [clear] throw that error after that one call: the codec is not asked
    for anything, no write batch is called and the transport state is as it
    was. *)
Theorem unresolved_target_makes_one_call {S : Type} (env : Env S) (s : S)
  (fb : WriteBatch) (e : error) :
  (forall args,
      env_doc env (path (fst (set_target args))) (snd (set_target args))
        = Err e ->
      run env (set fb args) s =
      mkOutcome (Err e) s
        [FirestoreDoc (path (fst (set_target args)))
                      (snd (set_target args))]) /\
  (forall args,
      env_doc env (path (fst (update_target args))) (snd (update_target args))
        = Err e ->
      run env (update fb args) s =
      mkOutcome (Err e) s
        [FirestoreDoc (path (fst (update_target args)))
                      (snd (update_target args))]) /\
  (forall args,
      env_doc env (path (fst (clear_target args))) (snd (clear_target args))
        = Err e ->
      run env (clear fb args) s =
      mkOutcome (Err e) s
        [FirestoreDoc (path (fst (clear_target args)))
                      (snd (clear_target args))]).
Proof.
  split; [|split]; intros args H.
  - rewrite run_set. destruct (set_target args) as [c i]; cbn in *.
    now rewrite H.
  - rewrite run_update. destruct (update_target args) as [c i]; cbn in *.
    now rewrite H.
  - rewrite run_clear. destruct (clear_target args) as [c i]; cbn in *.
    now rewrite H.
Qed.

Lemma unresolved_target_makes_one_call_witness :
  mem_doc "users" "" = Err (ResolutionError "id") /\
  run (memory_env true) (clear 0 (ClearCollection users ""))
      (mkMemory 1 [] []) =
  mkOutcome (Err (ResolutionError "id")) (mkMemory 1 [] [])
            [FirestoreDoc "users" ""].
Proof.
  split; [reflexivity|].
  exact (proj2 (proj2 (unresolved_target_makes_one_call (memory_env true)
                         (mkMemory 1 [] []) 0 (ResolutionError "id")))
               (ClearCollection users "") eq_refl).
Defined.

(** X5.  When the pointer is built and the data converted but the write
    batch's own [set], [update] or [delete] throws, the closure throws that
    error, [set] returns no Document, and the transport state is the one the
    failed call left. *)
Theorem transport_refusal_is_thrown {S : Type} (env : Env S) (s s' : S)
  (fb : WriteBatch) (e : error) :
  (forall args p w,
      env_doc env (path (fst (set_target args))) (snd (set_target args))
        = Ok p ->
      env_codec env (set_data args) = Ok w ->
      env_set env fb p w None s = (Err e, s') ->
      result (run env (set fb args) s) = Err e /\
      final (run env (set fb args) s) = s') /\
  (forall args p w,
      env_doc env (path (fst (update_target args))) (snd (update_target args))
        = Ok p ->
      env_codec env (updateData (update_data args)) = Ok w ->
      env_update env fb p w s = (Err e, s') ->
      result (run env (update fb args) s) = Err e /\
      final (run env (update fb args) s) = s') /\
  (forall args p,
      env_doc env (path (fst (clear_target args))) (snd (clear_target args))
        = Ok p ->
      env_delete env fb p s = (Err e, s') ->
      result (run env (clear fb args) s) = Err e /\
      final (run env (clear fb args) s) = s').
Proof.
  split; [|split].
  - intros args p w Hp Hw Ht. rewrite run_set.
    destruct (set_target args) as [c i]; cbn in *.
    rewrite Hp, Hw, Ht. now split.
  - intros args p w Hp Hw Ht. rewrite run_update.
    destruct (update_target args) as [c i]; cbn in *.
    rewrite Hp, Hw, Ht. now split.
  - intros args p Hp Ht. rewrite run_clear.
    destruct (clear_target args) as [c i]; cbn in *.
    rewrite Hp, Ht. now split.
Qed.

Lemma transport_refusal_is_thrown_witness :
  mem_doc "users" "sasha" = Ok sashaDoc /\
  unwrapData sashaKoss = Ok (WMap [("name", WStr "Sasha Koss")]) /\
  env_set (memory_env true) 0 sashaDoc (WMap [("name", WStr "Sasha Koss")])
          None (mkMemory 1 [] [0]) =
    (Err (TransportError "batch already committed"), mkMemory 1 [] [0]) /\
  result (run (memory_env true) (set 0 (SetRef sashaRef sashaKoss []))
              (mkMemory 1 [] [0])) =
    Err (TransportError "batch already committed") /\
  final (run (memory_env true) (set 0 (SetRef sashaRef sashaKoss []))
             (mkMemory 1 [] [0])) = mkMemory 1 [] [0].
Proof.
  split; [reflexivity|]. split; [reflexivity|]. split; [reflexivity|].
  exact (proj1 (transport_refusal_is_thrown (memory_env true)
                  (mkMemory 1 [] [0]) (mkMemory 1 [] [0]) 0
                  (TransportError "batch already committed"))
               (SetRef sashaRef sashaKoss []) sashaDoc
               (WMap [("name", WStr "Sasha Koss")]) eq_refl eq_refl eq_refl).
Defined.

(** X6.  Every key of the object a list of entries reduces to is the path
    of an entry, every value in it is the value of an entry with that path,
    and it has at most as many properties as there are entries.  Every
    entry's path is a key of it, the path [__proto__] excepted. *)
Theorem list_form_keys_are_entry_paths (fields : list Field) :
  (forall k, In k (obj_keys (reduce_fields fields)) ->
             exists f, In f fields /\ field_path (key f) = k) /\
  (forall f, In f fields -> field_path (key f) <> "__proto__" ->
             In (field_path (key f)) (obj_keys (reduce_fields fields))) /\
  (forall k v, obj_get k (reduce_fields fields) = Some v ->
               exists f, In f fields /\ field_path (key f) = k /\
                         value f = v) /\
  length (reduce_fields fields) <= length fields.
Proof.
  assert (O : forall k v, obj_get k (reduce_fields fields) = Some v ->
                exists f, In f fields /\ field_path (key f) = k /\
                          value f = v).
  { intros k v H. unfold reduce_fields, reduce_acc in H.
    apply fold_fields_origin in H. destruct H as [H|H]; [exact H|].
    discriminate H. }
  split; [|split; [|split]].
  - intros k H. apply obj_get_in in H. destruct H as [v H].
    destruct (O k v H) as [f [Hf [Hk _]]]. now exists f.
  - intros f Hf Hk.
    destruct (last_entry_in _ _ Hf eq_refl) as [v H].
    rewrite <- reduce_fields_get in H by exact Hk.
    now apply obj_get_some_in in H.
  - exact O.
  - unfold reduce_fields, reduce_acc.
    pose proof (fold_fields_length fields empty_acc) as H. cbn in H. exact H.
Qed.

(** X7.  When the entries of a list have pairwise different paths, none of
    them [__proto__] or an array index, the list reduces to the object with
    exactly those properties in the order of the entries, so the list form
    of [update] is the same program as the object form given that object. *)
Theorem distinct_paths_list_is_object (fb : WriteBatch)
  (fields : list Field) :
  NoDup (map (fun f => field_path (key f)) fields) ->
  no_proto_path fields ->
  Forall (fun f => array_index (field_path (key f)) = None) fields ->
  reduce_fields fields = map entry fields /\
  (forall r, update fb (UpdateRef r (FieldList fields)) =
             update fb (UpdateRef r (ModelUpdate (VObj (map entry fields))))) /\
  (forall c i,
      update fb (UpdateCollection c i (FieldList fields)) =
      update fb (UpdateCollection c i (ModelUpdate (VObj (map entry fields))))).
Proof.
  intros H P I.
  assert (E : reduce_acc fields = mkAcc None (map entry fields)).
  { unfold reduce_acc. rewrite fold_fields_plain by exact P. cbn.
    now rewrite fold_plain_distinct. }
  split; [unfold reduce_fields; now rewrite E|].
  split; intros; unfold update; cbn [update_target update_data updateData];
    now rewrite E.
Qed.

Lemma distinct_paths_list_is_object_witness :
  NoDup (map (fun f => field_path (key f))
             [field (KeyString "name") (VStr "Sasha Koss");
              field (KeyArray ["meta"; "updatedAt"]) (VNum 7)]) /\
  no_proto_path [field (KeyString "name") (VStr "Sasha Koss");
                 field (KeyArray ["meta"; "updatedAt"]) (VNum 7)] /\
  Forall (fun f => array_index (field_path (key f)) = None)
         [field (KeyString "name") (VStr "Sasha Koss");
          field (KeyArray ["meta"; "updatedAt"]) (VNum 7)] /\
  reduce_fields [field (KeyString "name") (VStr "Sasha Koss");
                 field (KeyArray ["meta"; "updatedAt"]) (VNum 7)] =
  [("name", VStr "Sasha Koss"); ("meta.updatedAt", VNum 7)].
Proof.
  assert (H : NoDup (map (fun f => field_path (key f))
                       [field (KeyString "name") (VStr "Sasha Koss");
                        field (KeyArray ["meta"; "updatedAt"]) (VNum 7)])).
  { cbn. constructor.
    - intros [E|[]]. discriminate E.
    - constructor; [intros []|constructor]. }
  assert (P : no_proto_path
                [field (KeyString "name") (VStr "Sasha Koss");
                 field (KeyArray ["meta"; "updatedAt"]) (VNum 7)]).
  { repeat constructor; discriminate. }
  assert (I : Forall (fun f => array_index (field_path (key f)) = None)
                [field (KeyString "name") (VStr "Sasha Koss");
                 field (KeyArray ["meta"; "updatedAt"]) (VNum 7)]).
  { repeat constructor. }
  split; [exact H|]. split; [exact P|]. split; [exact I|].
  exact (proj1 (@distinct_paths_list_is_object 0 _ H P I)).
Defined.

(** X8.  For entries with pairwise different paths the order of the list
    does not matter: any reordering reduces to an object with the same value
    under every key. *)
Theorem distinct_paths_order_irrelevant (fields fields' : list Field) :
  Permutation fields fields' ->
  NoDup (map (fun f => field_path (key f)) fields) ->
  forall k, obj_get k (reduce_fields fields) =
            obj_get k (reduce_fields fields').
Proof.
  intros HP Hnd k. destruct (String.eqb_spec k proto_key) as [->|Hk].
  - rewrite !reduce_fields_distinct_proto; [reflexivity| |exact Hnd].
    eapply Permutation_NoDup; [|exact Hnd].
    now apply Permutation_map.
  - rewrite !reduce_fields_get by exact Hk. now apply last_entry_perm.
Qed.

Lemma distinct_paths_order_irrelevant_witness :
  Permutation [field (KeyString "name") (VStr "Sasha Koss");
               field (KeyString "foo") (VBool true)]
              [field (KeyString "foo") (VBool true);
               field (KeyString "name") (VStr "Sasha Koss")] /\
  NoDup (map (fun f => field_path (key f))
             [field (KeyString "name") (VStr "Sasha Koss");
              field (KeyString "foo") (VBool true)]) /\
  obj_get "foo" (reduce_fields [field (KeyString "name") (VStr "Sasha Koss");
                                field (KeyString "foo") (VBool true)]) =
  obj_get "foo" (reduce_fields [field (KeyString "foo") (VBool true);
                                field (KeyString "name") (VStr "Sasha Koss")]).
Proof.
  assert (HP : Permutation [field (KeyString "name") (VStr "Sasha Koss");
                            field (KeyString "foo") (VBool true)]
                           [field (KeyString "foo") (VBool true);
                            field (KeyString "name") (VStr "Sasha Koss")])
    by apply perm_swap.
  assert (H : NoDup (map (fun f => field_path (key f))
                       [field (KeyString "name") (VStr "Sasha Koss");
                        field (KeyString "foo") (VBool true)])).
  { cbn. constructor.
    - intros [E|[]]. discriminate E.
    - constructor; [intros []|constructor]. }
  split; [exact HP|]. split; [exact H|].
  exact (@distinct_paths_order_irrelevant _ _ HP H "foo").
Defined.

(** X9.  An entry whose path is not [__proto__] and that a later entry of
    the same path overrides has no effect on any value of the reduced
    object: with or without it, every key holds the same value. *)
Theorem overridden_entry_is_dead (before after : list Field) (f g : Field) :
  field_path (key f) <> "__proto__" ->
  In g after ->
  field_path (key g) = field_path (key f) ->
  forall k, obj_get k (reduce_fields (before ++ f :: after)) =
            obj_get k (reduce_fields (before ++ after)).
Proof.
  intros Hf Hg Hk k. destruct (String.eqb_spec k proto_key) as [->|Hp].
  - unfold reduce_fields, reduce_acc.
    change (snd (proto_state
                   (fold_left
                      (fun acc h => acc_set (field_path (key h)) (value h) acc)
                      (before ++ f :: after) empty_acc)) =
            snd (proto_state
                   (fold_left
                      (fun acc h => acc_set (field_path (key h)) (value h) acc)
                      (before ++ after) empty_acc))).
    rewrite !fold_proto_state, !fold_left_app. cbn [fold_left].
    destruct (String.eqb_spec (field_path (key f)) proto_key);
      [contradiction|reflexivity].
  - rewrite !reduce_fields_get by exact Hp. rewrite !last_entry_app.
    cbn [last_entry]. destruct (last_entry k after) as [v|] eqn:E;
      [reflexivity|].
    destruct (String.eqb_spec (field_path (key f)) k) as [Ek|Ek].
    + destruct (@last_entry_in k g after Hg) as [v Hv]; [congruence|].
      rewrite Hv in E. discriminate E.
    + now destruct (last_entry k before).
Qed.

Lemma overridden_entry_is_dead_witness :
  field_path (key (field (KeyString "meta.updatedAt") (VNum 1)))
    <> "__proto__" /\
  In (field (KeyArray ["meta"; "updatedAt"]) (VNum 9))
     [field (KeyArray ["meta"; "updatedAt"]) (VNum 9)] /\
  field_path (key (field (KeyArray ["meta"; "updatedAt"]) (VNum 9))) =
  field_path (key (field (KeyString "meta.updatedAt") (VNum 1))) /\
  obj_get "meta.updatedAt"
    (reduce_fields ([field (KeyString "name") (VStr "Sasha Koss")] ++
                    field (KeyString "meta.updatedAt") (VNum 1) ::
                    [field (KeyArray ["meta"; "updatedAt"]) (VNum 9)])) =
  obj_get "meta.updatedAt"
    (reduce_fields ([field (KeyString "name") (VStr "Sasha Koss")] ++
                    [field (KeyArray ["meta"; "updatedAt"]) (VNum 9)])).
Proof.
  split; [discriminate|]. split; [left; reflexivity|]. split; [reflexivity|].
  exact (@overridden_entry_is_dead
           [field (KeyString "name") (VStr "Sasha Koss")]
           [field (KeyArray ["meta"; "updatedAt"]) (VNum 9)]
           (field (KeyString "meta.updatedAt") (VNum 1))
           (field (KeyArray ["meta"; "updatedAt"]) (VNum 9))
           ltac:(discriminate) (or_introl eq_refl) eq_refl "meta.updatedAt").
Defined.

(** X10.  The path of a key sequence made of two non-empty sequences is the
    path of the first, a dot and the path of the second; so a sequence and
    the two-part sequence of those two paths address the same property: the
    join does not keep apart the dots of the keys and the dots it adds. *)
Theorem key_sequence_path_composes (ks1 ks2 : list string) :
  ks1 <> [] -> ks2 <> [] ->
  field_path (KeyArray (ks1 ++ ks2)) =
  (field_path (KeyArray ks1) ++ "." ++ field_path (KeyArray ks2))%string /\
  field_path (KeyArray (ks1 ++ ks2)) =
  field_path (KeyArray [field_path (KeyArray ks1);
                        field_path (KeyArray ks2)]).
Proof.
  intros H1 H2. cbn [field_path]. rewrite concat_app by assumption.
  split; reflexivity.
Qed.

Lemma key_sequence_path_composes_witness :
  ["meta"; "stats"] <> [] /\ ["updatedAt"] <> [] /\
  field_path (KeyArray (["meta"; "stats"] ++ ["updatedAt"])) =
  field_path (KeyArray ["meta.stats"; "updatedAt"]).
Proof.
  split; [discriminate|]. split; [discriminate|].
  exact (proj2 (@key_sequence_path_composes ["meta"; "stats"] ["updatedAt"]
                  ltac:(discriminate) ltac:(discriminate))).
Defined.
